(** * Vector addition with a Triton kernel: a shallow embedding

    The development follows the notebook [triton-vec-add.ipynb]:
    the device kernel [add_kernel] and the host function [add] that
    allocates the output, checks residency, builds the launch grid and
    starts one program per block.

    Modelling decisions.
    - Element values are kept abstract (a type [T] with its addition
      [fadd]); the concrete scenarios instantiate them with [Z].
    - Memory is a finite map from storage identifiers to arrays.  A
      tensor is a handle (storage, number of elements, residency flag);
      two handles may share a storage.
    - A kernel is a computation in a small monad that reads the program
      identifier, threads the device state and stops at the first
      illegal access.  Every attempted access is appended to a log that
      records which program performed it.
    - The order in which the programs of a grid run is chosen by a
      scheduler, a parameter of the launch; the contents of a freshly
      allocated array are chosen by a parameter too.
    - Index arithmetic is unbounded ([nat]); [tl.arange] is taken to
      yield the plain range for every block size.
    - The lanes of a block are visited one after the other and the
      programs of a grid run one at a time.  A lane that reads or writes
      outside its array is a fault; the state at the fault is kept.
    - [add] returns before the grid has run; its outcome records both
      what the call returned and how the grid ended. *)

From stdpp Require Import base numbers option list gmap.
From Stdlib Require Import ZArith.

Set Default Proof Using "Type".
Set Warnings "-abstract-large-number".

(** ** Device state *)

Inductive access := Rd | Wr.

Record event := Ev {
  ev_pid : nat;      (* the program that performed the access *)
  ev_acc : access;
  ev_blk : nat;      (* the storage accessed *)
  ev_idx : nat       (* the index inside that storage *)
}.

Global Instance access_eq_dec : EqDecision access.
Proof. solve_decision. Defined.

Global Instance event_eq_dec : EqDecision event.
Proof. solve_decision. Defined.

Record ptr := Ptr { blk : nat; off : nat }.

(** [x_ptr + offsets]: pointer arithmetic on a block of lanes. *)
Definition ptr_add (p : ptr) (offsets : list nat) : list ptr :=
  map (fun o => Ptr (blk p) (off p + o)) offsets.

Record Tensor := mkTensor {
  storage : nat;
  numel : nat;
  is_cuda : bool
}.

(** A tensor passed to a kernel is converted into a pointer to its
    first element. *)
Definition data_ptr (t : Tensor) : ptr := Ptr (storage t) 0.

Inductive res (A : Type) :=
| Done (a : A)
| Fault.
Arguments Done {A} a.
Arguments Fault {A}.

Section Model.

Context {T : Type}.
Variable fadd : T -> T -> T.

Record dev := Dev {
  mem : gmap nat (list T);
  log : list event
}.

(** ** The kernel monad: program identifier, device state, faults *)

Definition K (A : Type) : Type := nat -> dev -> res A * dev.

Definition ret {A} (a : A) : K A := fun _ d => (Done a, d).

Definition bind {A B} (m : K A) (f : A -> K B) : K B :=
  fun pid d =>
    match m pid d with
    | (Done a, d') => f a pid d'
    | (Fault, d') => (Fault, d')
    end.

Notation "'do' x <- m ; k" := (bind m (fun x => k))
  (at level 10, x name, m at level 100, k at level 200,
   format "'[v' 'do'  x  <-  m ; '/' k ']'").
Notation "'exec' m ; k" := (bind m (fun _ => k))
  (at level 10, m at level 100, k at level 200,
   format "'[v' 'exec'  m ; '/' k ']'").

Fixpoint mapK {A B} (f : A -> K B) (l : list A) : K (list B) :=
  match l with
  | [] => ret []
  | a :: l' => do b <- f a; do bs <- mapK f l'; ret (b :: bs)
  end.

Fixpoint iterK {A} (f : A -> K unit) (l : list A) : K unit :=
  match l with
  | [] => ret tt
  | a :: l' => exec f a; iterK f l'
  end.

(** ** Triton primitives *)

Definition tl_program_id : K nat := fun pid d => (Done pid, d).

Definition tl_arange (lo hi : nat) : list nat := seq lo (hi - lo).

Definition emit (e : event) (d : dev) : dev := Dev (mem d) (log d ++ [e]).

(** One lane of a load: the access is logged, then performed. *)
Definition read1 (p : ptr) : K T := fun pid d =>
  let d' := emit (Ev pid Rd (blk p) (off p)) d in
  match mem d !! blk p ≫= (fun l => l !! off p) with
  | Some v => (Done v, d')
  | None => (Fault, d')
  end.

(** One lane of a store. *)
Definition write1 (p : ptr) (v : T) : K unit := fun pid d =>
  let d' := emit (Ev pid Wr (blk p) (off p)) d in
  match mem d !! blk p with
  | Some l =>
      if decide (off p < length l)
      then (Done tt, Dev (<[blk p := <[off p := v]> l]> (mem d)) (log d'))
      else (Fault, d')
  | None => (Fault, d')
  end.

(** [tl.load(ptrs, mask=mask)]: a lane whose mask is false is not
    accessed and its value is left undefined ([None]). *)
Definition tl_load (ptrs : list ptr) (mask : list bool) : K (list (option T)) :=
  mapK (fun '(p, m) => if m : bool then (do v <- read1 p; ret (Some v)) else ret None)
       (zip ptrs mask).

(** [tl.store(ptrs, value, mask=mask)]: a lane whose mask is false is
    skipped; storing an undefined value is an error. *)
Definition tl_store (ptrs : list ptr) (value : list (option T)) (mask : list bool)
  : K unit :=
  iterK (fun '(p, (v, m)) =>
           if m : bool
           then match v with Some a => write1 p a | None => fun _ d => (Fault, d) end
           else ret tt)
        (zip ptrs (zip value mask)).

(** [x + y] on blocks of lanes. *)
Definition lanes_add (x y : list (option T)) : list (option T) :=
  zip_with (fun a b => a' ← a; b' ← b; Some (fadd a' b')) x y.

(** ** The kernel *)

Definition add_kernel (x_ptr y_ptr output_ptr : ptr) (n_elements BLOCK_SIZE : nat)
  : K unit :=
  do pid <- tl_program_id;
  let block_start := pid * BLOCK_SIZE in
  let offsets := map (Nat.add block_start) (tl_arange 0 BLOCK_SIZE) in
  let mask := map (fun o => o <? n_elements) offsets in
  do x <- tl_load (ptr_add x_ptr offsets) mask;
  do y <- tl_load (ptr_add y_ptr offsets) mask;
  let output := lanes_add x y in
  tl_store (ptr_add output_ptr offsets) output mask.

(** ** The host side *)

(** [triton.cdiv(x, y)] is [(x + y - 1) // y]; the divisor is positive
    wherever it is used below. *)
Definition cdiv (x y : nat) : nat := (x + y - 1) / y.

(** [torch.empty_like(x)]: a new storage with the shape and the device
    of [x]; its contents are whatever [junk] says. *)
Definition empty_like (junk : nat -> T) (x : Tensor) (d : dev) : Tensor * dev :=
  let b := fresh (dom (mem d)) in
  (mkTensor b (numel x) (is_cuda x),
   Dev (<[b := map junk (seq 0 (numel x))]> (mem d)) (log d)).

(** [kernel[grid](...)]: one program per identifier in [0, grid), in
    the order the scheduler picks; the launch stops at the first
    fault. *)
Fixpoint run_programs (kernel : K unit) (order : list nat) (d : dev) : res unit * dev :=
  match order with
  | [] => (Done tt, d)
  | pid :: rest =>
      match kernel pid d with
      | (Done _, d') => run_programs kernel rest d'
      | (Fault, d') => (Fault, d')
      end
  end.

Definition launch (sched : list nat -> list nat) (grid : nat) (kernel : K unit)
  (d : dev) : res unit * dev :=
  run_programs kernel (sched (seq 0 grid)) d.

Inductive outcome :=
| Returned (output : Tensor) (k : res unit) (d : dev)
    (* [add] returned [output]; [k] is the state of the launched grid
       at the next synchronisation *)
| Raised (d : dev).
    (* the assertion of [add] failed *)

(** The body of [add], with the block size as a parameter. *)
Definition add_with (BLOCK_SIZE : nat) (sched : list nat -> list nat)
  (junk : nat -> T) (x y : Tensor) (d : dev) : outcome :=
  let '(output, d1) := empty_like junk x d in
  if negb (is_cuda x && is_cuda y && is_cuda output) then Raised d1 else
  let n_elements := numel output in
  let grid := cdiv n_elements BLOCK_SIZE in
  let '(k, d2) :=
    launch sched grid
      (add_kernel (data_ptr x) (data_ptr y) (data_ptr output) n_elements BLOCK_SIZE)
      d1 in
  Returned output k d2.

Definition add := add_with 1024.

(** ** What a tensor holds *)

(** [holds d t l]: in state [d] the storage of [t] is the array [l],
    whose length is the number of elements of [t]. *)
Definition holds (d : dev) (t : Tensor) (l : list T) : Prop :=
  mem d !! storage t = Some l ∧ length l = numel t.

(** A scheduler is admissible when it only reorders the programs. *)
Definition fair (sched : list nat -> list nat) : Prop :=
  ∀ l, sched l ≡ₚ l.

(** The offsets of program [pid], and those that pass the guard. *)
Definition block_offsets (BLOCK_SIZE pid : nat) : list nat :=
  map (Nat.add (pid * BLOCK_SIZE)) (tl_arange 0 BLOCK_SIZE).

Definition guarded (n_elements : nat) (offsets : list nat) : list nat :=
  filter (fun o => o < n_elements) offsets.

(** The accesses of one program, in program order. *)
Definition kernel_events (bx by_ bo n_elements BLOCK_SIZE pid : nat) : list event :=
  let os := guarded n_elements (block_offsets BLOCK_SIZE pid) in
  map (Ev pid Rd bx) os ++ map (Ev pid Rd by_) os ++ map (Ev pid Wr bo) os.

(** [covered bs order i]: some program of [order] has offset [i]. *)
Definition covered (bs : nat) (order : list nat) (i : nat) : Prop :=
  Exists (fun pid => i ∈ block_offsets bs pid) order.

Global Instance covered_dec bs order i : Decision (covered bs order i).
Proof. unfold covered. apply _. Defined.

Definition grid_log (x y out : Tensor) (BLOCK_SIZE : nat)
  (sched : list nat -> list nat) : list event :=
  concat (map (kernel_events (storage x) (storage y) (storage out) (numel out) BLOCK_SIZE)
              (sched (seq 0 (cdiv (numel out) BLOCK_SIZE)))).

(** ** What a computation may touch

    [extends P W d d']: going from [d] to [d'], only events satisfying
    [P] were logged, no array was created, removed or resized, and only
    cells in [W] may hold a new value.  It holds of every run, faulting
    or not. *)

Definition cell (d : dev) (b i : nat) : option T :=
  mem d !! b ≫= (fun l => l !! i).

Record extends (P : event -> Prop) (W : nat -> nat -> Prop) (d d' : dev) : Prop := {
  ext_log : ∃ evs, log d' = log d ++ evs ∧ Forall P evs;
  ext_shape : ∀ b, length <$> mem d' !! b = length <$> mem d !! b;
  ext_cell : ∀ b i, ¬ W b i → cell d' b i = cell d b i
}.

(** [safe P W pid m]: whatever the state, program [pid] running [m]
    stays within [P] and [W]. *)
Definition safe (P : event -> Prop) (W : nat -> nat -> Prop) (pid : nat)
  {A} (m : K A) : Prop :=
  ∀ d, extends P W d (m pid d).2.

(** The accesses program [pid] is allowed: inside its block, below the
    element count, reads from the inputs and writes to the output. *)
Definition kernel_may (bx by_ bo n bs pid : nat) (e : event) : Prop :=
  ev_pid e = pid ∧ ev_idx e < n ∧ ev_idx e ∈ block_offsets bs pid ∧
  match ev_acc e with
  | Rd => ev_blk e = bx ∨ ev_blk e = by_
  | Wr => ev_blk e = bo
  end.

Definition kernel_writes (bo n bs pid b i : nat) : Prop :=
  b = bo ∧ i < n ∧ i ∈ block_offsets bs pid.

(** The same for a whole grid, whatever the order and wherever it
    stops. *)
Definition grid_may (bx by_ bo n bs : nat) (e : event) : Prop :=
  kernel_may bx by_ bo n bs (ev_pid e) e.

Definition grid_writes (bo n b i : nat) : Prop := b = bo ∧ i < n.

(** ** Observing an invocation *)

(** The device state an invocation leaves behind. *)
Definition final (o : outcome) : dev :=
  match o with
  | Returned _ _ d => d
  | Raised d => d
  end.

(** What the caller sees: the values of the returned tensor once the
    grid has completed, or the error. *)
Inductive observation :=
| Values (l : list T)
| AssertionError
| DeviceError.

Definition observe (o : outcome) : observation :=
  match o with
  | Returned out (Done _) d =>
      match mem d !! storage out with
      | Some l => Values l
      | None => DeviceError
      end
  | Returned _ Fault _ => DeviceError
  | Raised _ => AssertionError
  end.

(** The writes to index [i] of storage [b]. *)
Definition writes_to (b i : nat) (e : event) : Prop :=
  ev_acc e = Wr ∧ ev_blk e = b ∧ ev_idx e = i.

Global Instance writes_to_dec b i e : Decision (writes_to b i e).
Proof. unfold writes_to. apply _. Defined.

(** The reads of index [i] of storage [b]. *)
Definition reads_of (b i : nat) (e : event) : Prop :=
  ev_acc e = Rd ∧ ev_blk e = b ∧ ev_idx e = i.

Global Instance reads_of_dec b i e : Decision (reads_of b i e).
Proof. unfold reads_of. apply _. Defined.

(** ** The timing cell

    The last cell of the notebook, up to the end of the measurement of
    the Triton launcher: two random vectors, a warm-up call, a
    synchronisation, the timed call, a synchronisation.  Reading the
    clock and printing do not touch the device and are left out. *)

(** [torch.randn(n, device='cuda')]: a new resident tensor of [n]
    elements, whose values are whatever [vals] says. *)
Definition randn (vals : nat -> T) (n : nat) (d : dev) : Tensor * dev :=
  let b := fresh (dom (mem d)) in
  (mkTensor b n true, Dev (<[b := map vals (seq 0 n)]> (mem d)) (log d)).

Inductive cell_outcome :=
| Completed (x y output : Tensor) (d : dev)
| CellAssertionError
    (* the assertion of [add] *)
| CellDeviceError.
    (* raised by [torch.cuda.synchronize()] when the grid faulted *)

(** The cell, with the length of the vectors as a parameter. *)
Definition timing_cell_with (n : nat) (vx vy : nat -> T)
  (s1 s2 : list nat -> list nat) (j1 j2 : nat -> T) (d : dev) : cell_outcome :=
  let '(x, d) := randn vx n d in
  let '(y, d) := randn vy n d in
  match add s1 j1 x y d with
  | Raised _ => CellAssertionError
  | Returned _ Fault _ => CellDeviceError
  | Returned _ (Done _) d =>
      match add s2 j2 x y d with
      | Raised _ => CellAssertionError
      | Returned _ Fault _ => CellDeviceError
      | Returned output (Done _) d => Completed x y output d
      end
  end.

Definition timing_cell := timing_cell_with 100000.

End Model.

(** * Concrete scenarios

    The scenarios use integer values; the sums involved are small
    integers, which floating-point addition computes exactly. *)

Module Scenario.

Definition A : list Z := [1; 2; 3; 4; 5]%Z.
Definition B : list Z := [10; 20; 30; 40; 50]%Z.

(** A device holding [A] in storage 0 and [B] in storage 1. *)
Definition device : @dev Z := Dev {[ 0 := A; 1 := B ]} [].
Definition x := mkTensor 0 5 true.
Definition y := mkTensor 1 5 true.

(** The same array [B] seen through a handle that is not resident. *)
Definition y_host := mkTensor 1 5 false.

(** Two empty vectors. *)
Definition device_empty : @dev Z := Dev {[ 0 := []; 1 := [] ]} [].
Definition x_empty := mkTensor 0 0 true.
Definition y_empty := mkTensor 1 0 true.

(** Inputs of different lengths: two elements against three. *)
Definition device_short : @dev Z := Dev {[ 0 := [1; 2]%Z; 1 := [10; 20; 30]%Z ]} [].
Definition x_short := mkTensor 0 2 true.
Definition y_long := mkTensor 1 3 true.

(** The arrays [A] and [B] next to an allocated output and an
    unrelated array, with an access already in the log. *)
Definition out := mkTensor 2 5 true.
Definition device_busy : @dev Z :=
  Dev {[ 0 := A; 1 := B; 2 := [0; 0; 0; 0; 0]%Z; 7 := [9]%Z ]} [Ev 0 Rd 7 0].

(** A third vector, next to [A] and [B]. *)
Definition C : list Z := [100; 200; 300; 400; 500]%Z.
Definition device3 : @dev Z := Dev {[ 0 := A; 1 := B; 2 := C ]} [].
Definition z := mkTensor 2 5 true.

Definition zeros : nat -> Z := fun _ => 0%Z.
Definition sevens : nat -> Z := fun _ => 7%Z.

(** The indices program [pid] wrote, in order, according to a log. *)
Definition written_by (evs : list event) (pid : nat) : list nat :=
  map ev_idx (filter (fun e => ev_pid e = pid ∧ ev_acc e = Wr) evs).

(** What the scenario of three blocks of two lanes shows: the state of
    the grid, the returned values and the indices each program wrote. *)
Definition summary (o : @outcome Z) : option (res unit * option (list Z) * list (list nat)) :=
  match o with
  | Returned out k d =>
      Some (k, mem d !! storage out, map (written_by (log d)) [0; 1; 2])
  | Raised _ => None
  end.

End Scenario.


(** * Facts about the kernel and its launcher *)

Section Facts.

Context {T : Type}.
Variable fadd : T -> T -> T.

Implicit Types d : @dev T.

(** ** Lanes *)

Lemma zip_fmap_diag {A B C} (f : A -> B) (g : A -> C) (l : list A) :
  zip (map f l) (map g l) = map (fun a => (f a, g a)) l.
Proof. induction l as [|a l IH]; simpl; [done | by rewrite IH]. Qed.

Lemma zip_with_fmap_diag {A B C D} (h : B -> C -> D) (f : A -> B) (g : A -> C)
  (l : list A) :
  zip_with h (map f l) (map g l) = map (fun a => h (f a) (g a)) l.
Proof. induction l as [|a l IH]; simpl; [done | by rewrite IH]. Qed.

Lemma elem_of_block_offsets bs pid i :
  i ∈ block_offsets bs pid ↔ pid * bs ≤ i < pid * bs + bs.
Proof.
  unfold block_offsets, tl_arange. rewrite Nat.sub_0_r, list_elem_of_fmap.
  split.
  - intros (j & -> & Hj). apply elem_of_seq in Hj. lia.
  - intros Hi. exists (i - pid * bs). split; [lia |]. apply elem_of_seq. lia.
Qed.

Lemma read1_ok b i pid d l v :
  mem d !! b = Some l → l !! i = Some v →
  read1 (Ptr b i) pid d = (Done v, emit (Ev pid Rd b i) d).
Proof. intros Hb Hi. unfold read1. cbn [blk off]. by rewrite Hb; cbn; rewrite Hi. Qed.

Lemma write1_ok b i a pid d l :
  mem d !! b = Some l → i < length l →
  write1 (Ptr b i) a pid d
  = (Done tt, Dev (<[b := <[i := a]> l]> (mem d)) (log d ++ [Ev pid Wr b i])).
Proof.
  intros Hb Hi. unfold write1. cbn [blk off]. rewrite Hb.
  by rewrite decide_True by done.
Qed.

Lemma tl_load_spec b l n os pid d :
  mem d !! b = Some l → n ≤ length l →
  tl_load (ptr_add (Ptr b 0) os) (map (fun o => o <? n) os) pid d
  = (Done (map (fun o => if o <? n then l !! o else None) os),
     Dev (mem d) (log d ++ map (Ev pid Rd b) (guarded n os))).
Proof.
  intros Hb Hn. unfold tl_load, ptr_add, guarded. rewrite zip_fmap_diag. cbn [blk off Nat.add].
  revert d Hb. induction os as [|o os IH]; intros d Hb.
  - simpl. unfold ret. rewrite app_nil_r. by destruct d.
  - rewrite !map_cons. cbn [mapK]. unfold bind at 1.
    destruct (Nat.ltb_spec o n) as [Ho | Ho].
    + destruct (lookup_lt_is_Some_2 l o ltac:(lia)) as [v Hv].
      unfold bind at 1. rewrite (read1_ok _ _ _ _ _ _ Hb Hv).
      unfold ret at 1. unfold bind at 1.
      rewrite (IH (emit _ d)) by done.
      unfold ret. cbn [mem log emit]. rewrite filter_cons_True by done.
      by rewrite Hv, <- app_assoc.
    + unfold ret at 1. unfold bind at 1. rewrite (IH d) by done.
      unfold ret. rewrite filter_cons_False by lia. done.
Qed.

Lemma cons_guard_ext {A} (i o n : nat) (os : list nat) (a b : A) :
  i ≠ o ∨ n ≤ o →
  (if decide (i < n ∧ i ∈ os) then a else b)
  = (if decide (i < n ∧ i ∈ o :: os) then a else b).
Proof.
  intros Hio.
  assert ((i < n ∧ i ∈ os) ↔ (i < n ∧ i ∈ o :: os)) as Hiff.
  { rewrite elem_of_cons. split; [tauto |]. intros [Hi [-> | Hin]]; [lia | done]. }
  by apply decide_ext.
Qed.

Lemma tl_store_spec bo n (v : nat -> option T) os pid d lo :
  mem d !! bo = Some lo → n ≤ length lo →
  (∀ o, o ∈ os → o < n → is_Some (v o)) →
  ∃ lo',
    tl_store (ptr_add (Ptr bo 0) os) (map v os) (map (fun o => o <? n) os) pid d
    = (Done tt,
       Dev (<[bo := lo']> (mem d)) (log d ++ map (Ev pid Wr bo) (guarded n os)))
    ∧ length lo' = length lo
    ∧ ∀ i, lo' !! i = if decide (i < n ∧ i ∈ os) then v i else lo !! i.
Proof.
  intros Hb Hn Hv. unfold tl_store, ptr_add, guarded.
  rewrite !zip_fmap_diag. cbn [blk off Nat.add].
  revert d lo Hb Hn. induction os as [|o os IH]; intros d lo Hb Hn.
  - exists lo. split_and!; [| done |].
    + simpl. unfold ret. rewrite app_nil_r, insert_id by done. by destruct d.
    + intros i. rewrite decide_False; [done |]. intros [_ Hi]. by apply elem_of_nil in Hi.
  - rewrite !map_cons. cbn [iterK]. unfold bind at 1.
    destruct (Nat.ltb_spec o n) as [Ho | Ho].
    + destruct (Hv o) as [a Ha]; [left | done |]. rewrite Ha.
      rewrite (write1_ok _ _ _ _ _ _ Hb) by lia.
      set (d1 := Dev _ _).
      destruct (IH (fun o' Ho' => Hv o' (list_elem_of_further _ _ _ Ho')) d1 (<[o := a]> lo))
        as (lo' & Hrun & Hlen & Hlk).
      { subst d1. cbn [mem]. by rewrite lookup_insert_eq. }
      { by rewrite length_insert. }
      exists lo'. split_and!.
      * rewrite Hrun. subst d1. cbn [mem log].
        rewrite insert_insert_eq, filter_cons_True by done.
        by rewrite map_cons, <- app_assoc.
      * by rewrite Hlen, length_insert.
      * intros i. rewrite Hlk. destruct (decide (i = o)) as [-> | Hne].
        -- rewrite (decide_True (P := o < n ∧ o ∈ o :: os)) by (split; [done | left]).
           case_decide; [done |]. rewrite list_lookup_insert_eq by lia. done.
        -- rewrite list_lookup_insert_ne by done.
           apply (cons_guard_ext i o n os (v i) (lo !! i)). left. done.
    + unfold ret at 1.
      destruct (IH (fun o' Ho' => Hv o' (list_elem_of_further _ _ _ Ho')) d lo Hb Hn)
        as (lo' & Hrun & Hlen & Hlk).
      exists lo'. split_and!; [| done |].
      * rewrite Hrun. by rewrite filter_cons_False by lia.
      * intros i. rewrite Hlk.
        apply (cons_guard_ext i o n os (v i) (lo !! i)). right. done.
Qed.

(** ** One program *)

Lemma add_kernel_spec bx by_ bo n bs pid d lx ly lo :
  mem d !! bx = Some lx → mem d !! by_ = Some ly → mem d !! bo = Some lo →
  n ≤ length lx → n ≤ length ly → n ≤ length lo →
  ∃ lo',
    add_kernel fadd (Ptr bx 0) (Ptr by_ 0) (Ptr bo 0) n bs pid d
    = (Done tt,
       Dev (<[bo := lo']> (mem d)) (log d ++ kernel_events bx by_ bo n bs pid))
    ∧ length lo' = length lo
    ∧ ∀ i, lo' !! i = if decide (i < n ∧ i ∈ block_offsets bs pid)
                      then zip_with fadd lx ly !! i else lo !! i.
Proof.
  intros Hx Hy Ho Hlx Hly Hlo.
  unfold add_kernel, tl_program_id. unfold bind at 1.
  fold (block_offsets bs pid). set (os := block_offsets bs pid).
  unfold bind at 1. rewrite (tl_load_spec _ _ _ _ _ _ Hx Hlx).
  unfold bind at 1. rewrite (tl_load_spec _ _ _ _ _ (Dev _ _) Hy Hly).
  unfold lanes_add. rewrite zip_with_fmap_diag. cbn [mem log].
  set (v := fun o : nat => _).
  destruct (tl_store_spec bo n v os pid (Dev (mem d) ((log d ++ map (Ev pid Rd bx) (guarded n os)) ++ map (Ev pid Rd by_) (guarded n os))) lo Ho Hlo)
    as (lo' & Hrun & Hlen & Hlk).
  { intros o _ Hon. subst v. cbn beta.
    apply Nat.ltb_lt in Hon as Hb. rewrite Hb.
    destruct (lookup_lt_is_Some_2 lx o ltac:(lia)) as [a ->].
    destruct (lookup_lt_is_Some_2 ly o ltac:(lia)) as [b ->]. by eexists. }
  exists lo'. split_and!; [| done |].
  - rewrite Hrun. cbn [mem log]. unfold kernel_events. fold os.
    by rewrite <- !app_assoc.
  - intros i. rewrite Hlk. case_decide as Hi; [| done].
    destruct Hi as [Hi _]. subst v. cbn beta.
    apply Nat.ltb_lt in Hi. rewrite Hi. by rewrite lookup_zip_with.
Qed.

(** ** A grid of programs *)

Lemma run_programs_spec bx by_ bo n bs order d lx ly lo :
  mem d !! bx = Some lx → mem d !! by_ = Some ly → mem d !! bo = Some lo →
  n ≤ length lx → n ≤ length ly → n ≤ length lo →
  bo ≠ bx → bo ≠ by_ →
  ∃ lo',
    run_programs (add_kernel fadd (Ptr bx 0) (Ptr by_ 0) (Ptr bo 0) n bs) order d
    = (Done tt,
       Dev (<[bo := lo']> (mem d))
           (log d ++ concat (map (kernel_events bx by_ bo n bs) order)))
    ∧ length lo' = length lo
    ∧ (∀ i, i < n → covered bs order i → lo' !! i = zip_with fadd lx ly !! i)
    ∧ (∀ i, ¬ (i < n ∧ covered bs order i) → lo' !! i = lo !! i).
Proof.
  intros Hx Hy Ho Hlx Hly Hlo Hox Hoy.
  revert d lo Hx Hy Ho Hlo. induction order as [|pid rest IH]; intros d lo Hx Hy Ho Hlo.
  - exists lo. cbn [run_programs map concat]. split_and!; [| done | |].
    + rewrite app_nil_r, insert_id by done. by destruct d.
    + intros i _ Hc. by apply Exists_nil in Hc.
    + done.
  - cbn [run_programs].
    destruct (add_kernel_spec bx by_ bo n bs pid d lx ly lo Hx Hy Ho Hlx Hly Hlo)
      as (lo1 & Hstep & Hlen1 & Hlk1).
    rewrite Hstep. set (d1 := Dev _ _).
    destruct (IH d1 lo1) as (lo' & Hrun & Hlen & Hin & Hout).
    { subst d1. cbn [mem]. by rewrite lookup_insert_ne. }
    { subst d1. cbn [mem]. by rewrite lookup_insert_ne. }
    { subst d1. cbn [mem]. by rewrite lookup_insert_eq. }
    { lia. }
    exists lo'. split_and!.
    + rewrite Hrun. subst d1. cbn [mem log map concat].
      by rewrite insert_insert_eq, <- app_assoc.
    + lia.
    + intros i Hi Hc. destruct (decide (covered bs rest i)) as [Hr | Hr].
      * by apply Hin.
      * rewrite Hout by tauto. rewrite Hlk1.
        apply Exists_cons in Hc as [Hc | Hc]; [| done].
        by rewrite decide_True.
    + intros i Hi. rewrite Hout, Hlk1.
      * rewrite decide_False; [done |]. intros [Hn Hb]. apply Hi.
        split; [done |]. by apply Exists_cons_hd.
      * intros [Hn Hr]. apply Hi. split; [done |]. by apply Exists_cons_tl.
Qed.

(** ** Blocks and the grid *)

Lemma block_of_index bs i pid :
  0 < bs → i ∈ block_offsets bs pid ↔ pid = i / bs.
Proof.
  intros Hbs. rewrite elem_of_block_offsets.
  pose proof (Nat.div_mod_eq i bs) as Hdm.
  pose proof (Nat.mod_upper_bound i bs ltac:(lia)) as Hm.
  split.
  - intros [Hlo Hhi]. apply (Nat.div_unique i bs pid (i - pid * bs)); lia.
  - intros ->. nia.
Qed.

Lemma cdiv_bound n bs i : 0 < bs → i < n → i / bs < cdiv n bs.
Proof.
  intros Hbs Hi. unfold cdiv.
  replace (n + bs - 1) with ((n - 1) + 1 * bs) by lia.
  rewrite Nat.div_add by lia.
  pose proof (Nat.Div0.div_le_mono i (n - 1) bs ltac:(lia)). lia.
Qed.

Lemma covered_fair sched n bs i :
  0 < bs → fair sched → i < n → covered bs (sched (seq 0 (cdiv n bs))) i.
Proof.
  intros Hbs Hf Hi. apply Exists_exists. exists (i / bs). split.
  - rewrite (Hf _). apply elem_of_seq. pose proof (cdiv_bound n bs i Hbs Hi). lia.
  - by apply block_of_index.
Qed.

(** ** The host function on resident inputs *)

Lemma add_with_spec bs sched junk x y d lx ly :
  0 < bs → fair sched →
  holds d x lx → holds d y ly → numel x ≤ numel y →
  is_cuda x = true → is_cuda y = true →
  let out := mkTensor (fresh (dom (mem d))) (numel x) true in
  add_with fadd bs sched junk x y d
  = Returned out (Done tt)
      (Dev (<[storage out := zip_with fadd lx ly]> (mem d))
           (log d ++ grid_log x y out bs sched)).
Proof.
  intros Hbs Hf [Hx Hlx] [Hy Hly] Hxy Hcx Hcy out.
  unfold add_with, empty_like, launch, data_ptr.
  cbn [numel is_cuda storage]. rewrite Hcx, Hcy. cbn [andb negb].
  set (b := fresh (dom (mem d))). set (jl := map junk _).
  assert (mem d !! b = None) as Hfresh.
  { apply not_elem_of_dom. apply is_fresh. }
  assert (b ≠ storage x) as Hbx by congruence.
  assert (b ≠ storage y) as Hby by congruence.
  destruct (run_programs_spec (storage x) (storage y) b (numel x) bs
              (sched (seq 0 (cdiv (numel x) bs)))
              (Dev (<[b := jl]> (mem d)) (log d)) lx ly jl)
    as (lo' & Hrun & Hlen & Hin & Hout); cbn [mem log].
  { by rewrite lookup_insert_ne. }
  { by rewrite lookup_insert_ne. }
  { by rewrite lookup_insert_eq. }
  { lia. }
  { lia. }
  { subst jl. rewrite length_map, length_seq. lia. }
  { done. }
  { done. }
  rewrite Hrun. cbn [mem log]. rewrite insert_insert_eq.
  subst out. unfold grid_log. cbn [storage numel]. fold b.
  do 3 f_equal. f_equal. apply list_eq. intros i.
  assert (length jl = numel x) as Hjl.
  { subst jl. by rewrite length_map, length_seq. }
  destruct (decide (i < numel x)) as [Hi | Hi].
  - apply Hin; [done |]. by apply covered_fair.
  - rewrite Hout by tauto.
    rewrite (lookup_ge_None_2 jl) by lia.
    symmetry. apply lookup_ge_None_2. rewrite length_zip_with. lia.
Qed.

(** ** What a computation may touch *)

Lemma extends_refl P W d : extends P W d d.
Proof.
  split; [| done | done]. exists []. by rewrite app_nil_r.
Qed.

Lemma extends_trans P W d1 d2 d3 :
  extends P W d1 d2 → extends P W d2 d3 → extends P W d1 d3.
Proof.
  intros [(e1 & Hl1 & Hp1) Hs1 Hc1] [(e2 & Hl2 & Hp2) Hs2 Hc2]. split.
  - exists (e1 ++ e2). rewrite Hl2, Hl1, app_assoc. split; [done |].
    by apply Forall_app.
  - intros b. by rewrite Hs2.
  - intros b i Hw. by rewrite Hc2, Hc1.
Qed.

Lemma extends_mono (P P' : event -> Prop) (W W' : nat -> nat -> Prop) d d' :
  (∀ e, P e → P' e) → (∀ b i, W b i → W' b i) →
  extends P W d d' → extends P' W' d d'.
Proof.
  intros HP HW [(evs & Hl & Hp) Hs Hc]. split; [| done |].
  - exists evs. split; [done |]. eapply Forall_impl; eauto.
  - intros b i Hw. apply Hc. intros Hw'. apply Hw. by apply HW.
Qed.

(** Arrays outside the written region are unchanged as a whole. *)
Lemma extends_block P W d d' b :
  extends P W d d' → (∀ i, ¬ W b i) → mem d' !! b = mem d !! b.
Proof.
  intros [_ Hs Hc] Hb. specialize (Hs b).
  assert (∀ i, cell d' b i = cell d b i) as Hcell by (intros i; by apply Hc).
  unfold cell in Hcell.
  destruct (mem d' !! b) as [l' |], (mem d !! b) as [l |]; try done.
  f_equal. apply list_eq. intros i. apply (Hcell i).
Qed.

Section Frame.

Variable P : event -> Prop.
Variable W : nat -> nat -> Prop.
Variable pid : nat.

Local Abbreviation safe' := (safe (T:=T) P W pid).

Lemma safe_ret {A} (a : A) : safe' (ret a).
Proof. intros d. apply extends_refl. Qed.

Lemma safe_bind {A B} (m : K A) (f : A -> K B) :
  safe' m → (∀ a, safe' (f a)) → safe' (bind m f).
Proof.
  intros Hm Hf d. unfold bind. specialize (Hm d).
  destruct (m pid d) as [[a |] d1]; cbn [snd] in *; [| done].
  eapply extends_trans; [done |]. apply Hf.
Qed.

Lemma safe_mapK {A B} (f : A -> K B) (l : list A) :
  Forall (fun a => safe' (f a)) l → safe' (mapK f l).
Proof.
  induction 1 as [|a l Ha Hl IH]; cbn [mapK]; [apply safe_ret |].
  apply safe_bind; [done |]. intros b.
  apply safe_bind; [done |]. intros bs. apply safe_ret.
Qed.

Lemma safe_iterK {A} (f : A -> K unit) (l : list A) :
  Forall (fun a => safe' (f a)) l → safe' (iterK f l).
Proof.
  induction 1 as [|a l Ha Hl IH]; cbn [iterK]; [apply safe_ret |].
  by apply safe_bind.
Qed.

Lemma safe_emit e d : P e → extends P W d (emit e d).
Proof.
  intros He. split; [| done | done]. exists [e]. split; [done |].
  by apply Forall_singleton.
Qed.

Lemma safe_fault {A} : safe' (fun _ d => (@Fault A, d)).
Proof. intros d. apply extends_refl. Qed.

Lemma safe_read1 p : P (Ev pid Rd (blk p) (off p)) → safe' (read1 p).
Proof.
  intros He d. unfold read1.
  destruct (mem d !! blk p ≫= _); cbn [snd]; by apply safe_emit.
Qed.

Lemma safe_write1 p v :
  P (Ev pid Wr (blk p) (off p)) → W (blk p) (off p) → safe' (write1 p v).
Proof.
  intros He Hw d. unfold write1.
  destruct (mem d !! blk p) as [l |] eqn:Hl; [| by apply safe_emit].
  case_decide as Hlt; cbn [snd]; [| by apply safe_emit].
  split; cbn [mem log emit].
  - exists [Ev pid Wr (blk p) (off p)]. split; [done |]. by apply Forall_singleton.
  - intros b. destruct (decide (b = blk p)) as [-> | Hne].
    + by rewrite lookup_insert_eq, Hl; cbn; rewrite length_insert.
    + by rewrite lookup_insert_ne.
  - intros b i Hnw. unfold cell. cbn [mem].
    destruct (decide (b = blk p)) as [-> | Hne].
    + rewrite lookup_insert_eq, Hl. cbn.
      apply list_lookup_insert_ne. intros <-. by apply Hnw.
    + by rewrite lookup_insert_ne.
Qed.

Lemma safe_tl_load ptrs mask :
  Forall (fun '(p, m) => m = true → P (Ev pid Rd (blk p) (off p))) (zip ptrs mask) →
  safe' (tl_load ptrs mask).
Proof.
  intros H. apply safe_mapK. eapply Forall_impl; [done |].
  intros [p [|]] Hp; [| apply safe_ret].
  apply safe_bind; [by apply safe_read1, Hp |]. intros v. apply safe_ret.
Qed.

Lemma safe_tl_store ptrs value mask :
  Forall (fun '(p, m) => m = true →
            P (Ev pid Wr (blk p) (off p)) ∧ W (blk p) (off p)) (zip ptrs mask) →
  safe' (tl_store ptrs value mask).
Proof.
  intros H. apply safe_iterK.
  revert value mask H. induction ptrs as [|p ptrs IH]; intros value mask H; [done |].
  destruct value as [|v value]; [done |]. destruct mask as [|m mask]; [done |].
  cbn [zip zip_with] in *. apply Forall_cons in H as [Hp H].
  apply Forall_cons. split; [| by apply IH].
  destruct m; [| apply safe_ret]. destruct (Hp eq_refl) as [He Hw].
  destruct v; [by apply safe_write1 | apply safe_fault].
Qed.

End Frame.

Lemma lanes_guarded (Q : ptr -> Prop) b n os :
  (∀ o, o ∈ os → o < n → Q (Ptr b o)) →
  Forall (fun '(p, m) => m = true → Q p)
         (zip (ptr_add (Ptr b 0) os) (map (fun o => o <? n) os)).
Proof.
  intros H. unfold ptr_add. rewrite zip_fmap_diag. cbn [blk off Nat.add].
  apply Forall_fmap, Forall_forall. intros o Ho. cbn.
  intros Hlt. apply Nat.ltb_lt in Hlt. by apply H.
Qed.

Lemma safe_add_kernel bx by_ bo n bs pid :
  safe (kernel_may bx by_ bo n bs pid) (kernel_writes bo n bs pid) pid
       (add_kernel fadd (Ptr bx 0) (Ptr by_ 0) (Ptr bo 0) n bs).
Proof.
  intros d. unfold add_kernel, tl_program_id. unfold bind at 1.
  fold (block_offsets bs pid). revert d.
  assert (∀ acc b, (acc = Wr → b = bo) → (acc = Rd → b = bx ∨ b = by_) →
          ∀ o, o ∈ block_offsets bs pid → o < n →
          kernel_may bx by_ bo n bs pid (Ev pid acc b o)) as Hmay.
  { intros acc b Hw Hr o Ho Hn. unfold kernel_may. cbn. split_and!; try done.
    destruct acc; auto. }
  apply (safe_bind _ _ pid).
  { apply safe_tl_load.
    apply (lanes_guarded (fun p => kernel_may bx by_ bo n bs pid (Ev pid Rd (blk p) (off p)))).
    intros o Ho Hn. cbn. apply Hmay; auto. done. }
  intros x. apply (safe_bind _ _ pid).
  { apply safe_tl_load.
    apply (lanes_guarded (fun p => kernel_may bx by_ bo n bs pid (Ev pid Rd (blk p) (off p)))).
    intros o Ho Hn. cbn. apply Hmay; auto. done. }
  intros y. apply safe_tl_store.
  apply (lanes_guarded (fun p => kernel_may bx by_ bo n bs pid (Ev pid Wr (blk p) (off p))
                                 ∧ kernel_writes bo n bs pid (blk p) (off p))).
  intros o Ho Hn. cbn. split; [apply Hmay; auto; done | done].
Qed.

Lemma safe_run_programs bx by_ bo n bs order d :
  extends (grid_may bx by_ bo n bs) (grid_writes bo n) d
    (run_programs (add_kernel fadd (Ptr bx 0) (Ptr by_ 0) (Ptr bo 0) n bs) order d).2.
Proof.
  revert d. induction order as [|pid rest IH]; intros d; cbn [run_programs].
  { apply extends_refl. }
  pose proof (safe_add_kernel bx by_ bo n bs pid d) as Hk.
  apply (extends_mono _ (grid_may bx by_ bo n bs) _ (grid_writes bo n)) in Hk.
  - destruct (add_kernel _ _ _ _ _ _ pid d) as [[[] |] d1]; cbn [snd] in *; [| done].
    eapply extends_trans; [done | apply IH].
  - intros e He. unfold grid_may, kernel_may in *.
    destruct He as (Hp & ? & ? & ?). by rewrite Hp.
  - intros b i (-> & Hi & _). done.
Qed.

(** ** The host function, whatever the inputs *)

Lemma add_with_raises bs sched junk x y d :
  is_cuda x && is_cuda y = false →
  add_with fadd bs sched junk x y d
  = Raised (Dev (<[fresh (dom (mem d)) := map junk (seq 0 (numel x))]> (mem d)) (log d)).
Proof.
  intros Hc. unfold add_with, empty_like. cbn [is_cuda].
  destruct (is_cuda x), (is_cuda y); done.
Qed.

Lemma fresh_unused d : mem d !! fresh (dom (mem d)) = None.
Proof. apply not_elem_of_dom, is_fresh. Qed.

Lemma add_with_touches bs sched junk x y d :
  let b := fresh (dom (mem d)) in
  let d' := final (add_with fadd bs sched junk x y d) in
  (∀ b', b' ≠ b → mem d' !! b' = mem d !! b') ∧
  ∃ evs, log d' = log d ++ evs ∧
         Forall (grid_may (storage x) (storage y) b (numel x) bs) evs.
Proof.
  intros b d'. subst d'. unfold add_with, empty_like, launch, data_ptr.
  cbn [numel is_cuda storage]. fold b.
  destruct (negb _).
  { cbn [final mem log]. split.
    - intros b' Hb'. by rewrite lookup_insert_ne.
    - exists []. by rewrite app_nil_r. }
  set (d1 := Dev _ _).
  pose proof (safe_run_programs (storage x) (storage y) b (numel x) bs
                (sched (seq 0 (cdiv (numel x) bs))) d1) as Hext.
  destruct (run_programs _ _ d1) as [k d2]. cbn [final snd] in *. split.
  - intros b' Hb'. rewrite (extends_block _ _ d1 d2 b' Hext).
    + subst d1. cbn [mem]. by rewrite lookup_insert_ne.
    + intros i [Hb _]. done.
  - destruct Hext as [(evs & Hl & Hp) _ _]. by exists evs.
Qed.

Lemma add_with_output bs sched junk x y d out k d' :
  add_with fadd bs sched junk x y d = Returned out k d' →
  out = mkTensor (fresh (dom (mem d))) (numel x) (is_cuda x).
Proof.
  unfold add_with, empty_like. destruct (negb _); [done |].
  destruct (launch _ _ _ _). by intros [= <- _ _].
Qed.

(** ** Who writes where *)

Lemma filter_fmap_list {A B} (f : A -> B) (Q : B -> Prop)
  `{!∀ x, Decision (Q x)} (l : list A) :
  filter Q (f <$> l) = f <$> filter (fun a => Q (f a)) l.
Proof.
  induction l as [|a l IH]; [done |]. rewrite fmap_cons.
  destruct (decide (Q (f a))) as [Ha | Ha].
  - by rewrite !filter_cons_True, fmap_cons, IH by done.
  - by rewrite !filter_cons_False, IH by done.
Qed.

Lemma filter_none {A} (Q : A -> Prop) `{!∀ x, Decision (Q x)} (l : list A) :
  (∀ a, ¬ Q a) → filter Q l = [].
Proof.
  intros Hq. induction l as [|a l IH]; [done |].
  by rewrite filter_cons_False.
Qed.

Lemma filter_index_seq i n a len :
  filter (fun o => o = i ∧ o < n) (seq a len)
  = if decide (i < n ∧ a ≤ i < a + len) then [i] else [].
Proof.
  revert a. induction len as [|len IH]; intros a.
  { cbn. rewrite decide_False; [done | lia]. }
  cbn [seq]. destruct (decide (a = i ∧ a < n)) as [[-> Hn] | Hne].
  - rewrite filter_cons_True by done. rewrite IH.
    rewrite decide_False by lia. rewrite decide_True by lia. done.
  - rewrite filter_cons_False by done. rewrite IH.
    apply decide_ext. lia.
Qed.

Lemma guarded_index n bs pid i :
  filter (fun o => o = i) (guarded n (block_offsets bs pid))
  = if decide (i < n ∧ i ∈ block_offsets bs pid) then [i] else [].
Proof.
  unfold guarded. rewrite list_filter_filter.
  erewrite decide_ext; [| by rewrite elem_of_block_offsets].
  unfold block_offsets, tl_arange.
  rewrite Nat.sub_0_r, fmap_add_seq, Nat.add_0_r.
  apply filter_index_seq.
Qed.

Lemma kernel_events_writes bx by_ bo n bs pid i :
  filter (writes_to bo i) (kernel_events bx by_ bo n bs pid)
  = if decide (i < n ∧ i ∈ block_offsets bs pid) then [Ev pid Wr bo i] else [].
Proof.
  unfold kernel_events. rewrite !filter_app, !filter_fmap_list.
  rewrite !(filter_none (fun a => writes_to bo i (Ev pid Rd _ a)))
    by (intros a [? _]; done).
  cbn [fmap list_fmap app].
  rewrite (list_filter_iff _ (fun o => o = i)).
  - rewrite guarded_index. by case_decide.
  - intros o. unfold writes_to. cbn. tauto.
Qed.

Lemma grid_writes_once bx by_ bo n bs order i :
  0 < bs → NoDup order →
  filter (writes_to bo i) (concat (map (kernel_events bx by_ bo n bs) order))
  = if decide (i < n ∧ i / bs ∈ order) then [Ev (i / bs) Wr bo i] else [].
Proof.
  intros Hbs. induction 1 as [|pid rest Hpid Hnd IH].
  { cbn. rewrite decide_False; [done |]. intros [_ Hin]. by apply elem_of_nil in Hin. }
  cbn [map concat]. rewrite filter_app, kernel_events_writes, IH.
  destruct (decide (i < n ∧ i ∈ block_offsets bs pid)) as [[Hi Hin] | Hno].
  - apply block_of_index in Hin as ->; [| done].
    rewrite decide_False by tauto.
    rewrite decide_True by (split; [done | left]). done.
  - cbn [app]. apply decide_ext. rewrite elem_of_cons.
    split; [tauto |]. intros [Hi [Heq | Hin]]; [| done].
    exfalso. apply Hno. split; [done |]. by apply block_of_index.
Qed.

Lemma fair_order sched n bs k :
  fair sched → k ∈ sched (seq 0 (cdiv n bs)) ↔ k < cdiv n bs.
Proof.
  intros Hf. rewrite (Hf _), elem_of_seq. lia.
Qed.

Lemma fair_NoDup sched m : fair sched → NoDup (sched (seq 0 m)).
Proof. intros Hf. rewrite (Hf _). apply NoDup_seq. Qed.

Lemma add_with_returns_shape bs sched junk x y d :
  is_cuda x = true → is_cuda y = true →
  ∃ k d' lo,
    add_with fadd bs sched junk x y d
    = Returned (mkTensor (fresh (dom (mem d))) (numel x) true) k d'
    ∧ mem d' !! fresh (dom (mem d)) = Some lo ∧ length lo = numel x.
Proof.
  intros Hx Hy. unfold add_with, empty_like, launch, data_ptr.
  cbn [numel is_cuda storage]. rewrite Hx, Hy. cbn [andb negb].
  set (b := fresh (dom (mem d))). set (d1 := Dev _ _).
  pose proof (safe_run_programs (storage x) (storage y) b (numel x) bs
                (sched (seq 0 (cdiv (numel x) bs))) d1) as [_ Hs _].
  destruct (run_programs _ _ d1) as [k d2]. cbn [snd] in Hs.
  specialize (Hs b). subst d1. cbn [mem] in Hs. rewrite lookup_insert_eq in Hs.
  cbn in Hs. rewrite length_map, length_seq in Hs.
  apply fmap_Some in Hs as (lo & Hlo & Hlen). by exists k, d2, lo.
Qed.

(** ** A second input that is too short *)

Lemma read1_fault b i pid d l :
  mem d !! b = Some l → length l ≤ i →
  (read1 (Ptr b i) pid d).1 = Fault.
Proof.
  intros Hb Hi. unfold read1. cbn [blk off]. rewrite Hb. cbn.
  by rewrite (lookup_ge_None_2 l i).
Qed.

Lemma tl_load_fault b l n os pid d :
  mem d !! b = Some l →
  (∃ o, o ∈ os ∧ o < n ∧ length l ≤ o) →
  (tl_load (ptr_add (Ptr b 0) os) (map (fun o => o <? n) os) pid d).1 = Fault.
Proof.
  intros Hb Hbad. unfold tl_load, ptr_add. rewrite zip_fmap_diag.
  cbn [blk off Nat.add]. revert d Hb.
  induction os as [|o os IH]; intros d Hb.
  { destruct Hbad as (o & Ho & _). by apply elem_of_nil in Ho. }
  rewrite map_cons. cbn [mapK]. unfold bind at 1.
  destruct (Nat.ltb_spec o n) as [Hon | Hon].
  - unfold bind at 1. destruct (decide (o < length l)) as [Hol | Hol].
    + destruct (lookup_lt_is_Some_2 l o Hol) as [v Hv].
      rewrite (read1_ok _ _ _ _ _ _ Hb Hv). unfold ret at 1. unfold bind at 1.
      rewrite (surjective_pairing (mapK _ _ _ _)), IH; [done | |done].
      destruct Hbad as (o' & Ho' & Hn' & Hl'). exists o'.
      apply elem_of_cons in Ho' as [-> | Ho']; [lia | done].
    + pose proof (read1_fault b o pid d l Hb ltac:(lia)) as Hf.
      destruct (read1 _ pid d) as [r d1]. cbn in Hf. by rewrite Hf.
  - unfold ret at 1. unfold bind at 1.
    rewrite (surjective_pairing (mapK _ _ _ _)), IH; [done | |done].
    destruct Hbad as (o' & Ho' & Hn' & Hl'). exists o'.
    apply elem_of_cons in Ho' as [-> | Ho']; [lia | done].
Qed.

Lemma add_kernel_fault bx by_ bo n bs pid d lx ly :
  mem d !! bx = Some lx → n ≤ length lx → mem d !! by_ = Some ly →
  (∃ o, o ∈ block_offsets bs pid ∧ o < n ∧ length ly ≤ o) →
  (add_kernel fadd (Ptr bx 0) (Ptr by_ 0) (Ptr bo 0) n bs pid d).1 = Fault.
Proof.
  intros Hx Hlx Hy Hbad.
  unfold add_kernel, tl_program_id. unfold bind at 1.
  fold (block_offsets bs pid).
  unfold bind at 1. rewrite (tl_load_spec _ _ _ _ _ _ Hx Hlx).
  unfold bind at 1.
  pose proof (tl_load_fault by_ ly n (block_offsets bs pid) pid
                (Dev (mem d) (log d ++ map (Ev pid Rd bx) (guarded n (block_offsets bs pid))))
                Hy Hbad) as Hf.
  destruct (tl_load _ _ pid _) as [r d1]. cbn in Hf. by rewrite Hf.
Qed.

Lemma run_programs_fault bx by_ bo n bs order d lx ly pid0 :
  mem d !! bx = Some lx → n ≤ length lx → mem d !! by_ = Some ly →
  bo ≠ bx → bo ≠ by_ → pid0 ∈ order →
  (∃ o, o ∈ block_offsets bs pid0 ∧ o < n ∧ length ly ≤ o) →
  (run_programs (add_kernel fadd (Ptr bx 0) (Ptr by_ 0) (Ptr bo 0) n bs) order d).1
  = Fault.
Proof.
  intros Hx Hlx Hy Hox Hoy Hin Hbad. revert d Hx Hy.
  induction order as [|pid rest IH]; intros d Hx Hy.
  { by apply elem_of_nil in Hin. }
  cbn [run_programs].
  pose proof (safe_add_kernel bx by_ bo n bs pid d) as Hext.
  destruct (add_kernel _ _ _ _ _ _ pid d) as [[[] |] d1] eqn:Hrun; [| done].
  cbn [snd] in Hext.
  apply elem_of_cons in Hin as [-> | Hin].
  - pose proof (add_kernel_fault bx by_ bo n bs pid d lx ly Hx Hlx Hy Hbad) as Hf.
    by rewrite Hrun in Hf.
  - apply IH; [done | |].
    + rewrite (extends_block _ _ d d1 bx Hext); [done |]. by intros i [? _].
    + rewrite (extends_block _ _ d d1 by_ Hext); [done |]. by intros i [? _].
Qed.

Lemma add_with_faults bs sched junk x y d lx ly :
  0 < bs → fair sched →
  holds d x lx → holds d y ly → numel y < numel x →
  is_cuda x = true → is_cuda y = true →
  ∃ out d', add_with fadd bs sched junk x y d = Returned out Fault d'.
Proof.
  intros Hbs Hf [Hx Hlx] [Hy Hly] Hlt Hcx Hcy.
  unfold add_with, empty_like, launch, data_ptr.
  cbn [numel is_cuda storage]. rewrite Hcx, Hcy. cbn [andb negb].
  set (b := fresh (dom (mem d))). set (d1 := Dev _ _).
  pose proof (fresh_unused d) as Hfresh. fold b in Hfresh.
  assert (b ≠ storage x) as Hbx by congruence.
  assert (b ≠ storage y) as Hby by congruence.
  pose proof (run_programs_fault (storage x) (storage y) b (numel x) bs
                (sched (seq 0 (cdiv (numel x) bs))) d1 lx ly (numel y / bs)) as Hfault.
  destruct (run_programs _ _ d1) as [k d2]. cbn [fst] in Hfault.
  rewrite Hfault; [by eexists _, _ | | lia | | done | done | |].
  - subst d1. cbn [mem]. by rewrite lookup_insert_ne.
  - subst d1. cbn [mem]. by rewrite lookup_insert_ne.
  - apply fair_order; [done |]. by apply cdiv_bound.
  - exists (numel y). split; [by apply block_of_index | lia].
Qed.

(** * The claims *)







(** C7. On an empty first input the grid has no program: nothing is
    logged, and the call returns an empty tensor without error. *)
Theorem add_empty bs sched junk x y d :
  0 < bs → fair sched → numel x = 0 →
  is_cuda x = true → is_cuda y = true →
  cdiv (numel x) bs = 0
  ∧ ∃ out,
      add_with fadd bs sched junk x y d
      = Returned out (Done tt) (Dev (<[storage out := []]> (mem d)) (log d))
      ∧ numel out = 0.
Proof.
  intros Hbs Hf Hn Hcx Hcy.
  assert (cdiv 0 bs = 0) as Hgrid.
  { unfold cdiv. apply Nat.div_small. lia. }
  rewrite Hn. split; [done |].
  exists (mkTensor (fresh (dom (mem d))) 0 true). split; [| done].
  unfold add_with, empty_like, launch. cbn [numel is_cuda storage].
  rewrite Hn, Hcx, Hcy, Hgrid. cbn [andb negb seq map].
  assert (sched [] = []) as -> by (apply Permutation_nil_r, Hf).
  done.
Qed.



(** * Further properties of the kernel and of its callers *)

(** ** Programs beyond the end *)

Lemma tl_load_masked ptrs mask pid d :
  Forall (fun m => m = false) mask →
  ∃ vs, tl_load ptrs mask pid d = (Done vs, d).
Proof.
  unfold tl_load. intros Hm. revert ptrs.
  induction Hm as [|m mask -> _ IH]; intros ptrs.
  { destruct ptrs; by eexists. }
  destruct ptrs as [|p ptrs]; [by eexists |].
  destruct (IH ptrs) as [vs Hvs]. cbn [zip zip_with] in *.
  exists (None :: vs). cbn [mapK]. unfold bind at 1, ret at 1.
  unfold bind at 1. by rewrite Hvs.
Qed.

Lemma tl_store_masked ptrs value mask pid d :
  Forall (fun m => m = false) mask →
  tl_store ptrs value mask pid d = (Done tt, d).
Proof.
  unfold tl_store. intros Hm. revert ptrs value.
  induction Hm as [|m mask -> _ IH]; intros ptrs value.
  { destruct ptrs, value; done. }
  destruct ptrs as [|p ptrs]; [done |]. destruct value as [|v value]; [done |].
  specialize (IH ptrs value). cbn [zip zip_with] in *.
  cbn [iterK]. unfold bind at 1, ret at 1. exact IH.
Qed.


(** ** The grid is exact *)

Lemma cdiv_exact n bs pid : 0 < bs → pid < cdiv n bs ↔ pid * bs < n.
Proof.
  intros Hbs. unfold cdiv.
  pose proof (Nat.div_mod_eq (n + bs - 1) bs) as Hdm.
  pose proof (Nat.mod_upper_bound (n + bs - 1) bs ltac:(lia)) as Hm.
  split; intros H; nia.
Qed.

Lemma elem_of_kernel_events bx by_ bo n bs pid e :
  e ∈ kernel_events bx by_ bo n bs pid →
  ev_pid e = pid ∧ ev_idx e < n ∧ ev_idx e ∈ block_offsets bs pid.
Proof.
  unfold kernel_events, guarded. rewrite !elem_of_app, !list_elem_of_fmap.
  intros [(o & -> & Ho) | [(o & -> & Ho) | (o & -> & Ho)]];
    apply list_elem_of_filter in Ho as [? ?]; done.
Qed.

Lemma elem_of_grid_log_inv (f : nat -> list event) order e :
  e ∈ concat (map f order) ↔ ∃ pid, pid ∈ order ∧ e ∈ f pid.
Proof.
  induction order as [|p rest IH]; cbn [map concat].
  - split; [by intros ?%elem_of_nil | by intros (? & ?%elem_of_nil & _)].
  - rewrite elem_of_app, IH. split.
    + intros [He | (q & Hq & He)]; [exists p | exists q]; split; try done;
        [left | by right].
    + intros (q & Hq & He). apply elem_of_cons in Hq as [-> | Hq]; [by left |].
      right. by exists q.
Qed.


(** ** Every operand is read once *)

Lemma concat_once (Q : event -> Prop) `{!∀ e, Decision (Q e)}
  (f : nat -> list event) (g : nat -> event) n bs order i :
  0 < bs → NoDup order →
  (∀ pid, filter Q (f pid)
          = if decide (i < n ∧ i ∈ block_offsets bs pid) then [g pid] else []) →
  filter Q (concat (map f order))
  = if decide (i < n ∧ i / bs ∈ order) then [g (i / bs)] else [].
Proof.
  intros Hbs Hnd Hf. induction Hnd as [|pid rest Hpid Hnd IH].
  { cbn. rewrite decide_False; [done |]. intros [_ Hin]. by apply elem_of_nil in Hin. }
  cbn [map concat]. rewrite filter_app, Hf, IH.
  destruct (decide (i < n ∧ i ∈ block_offsets bs pid)) as [[Hi Hin] | Hno].
  - apply block_of_index in Hin as ->; [| done].
    rewrite decide_False by tauto.
    rewrite decide_True by (split; [done | left]). done.
  - cbn [app]. apply decide_ext. rewrite elem_of_cons.
    split; [tauto |]. intros [Hi [Heq | Hin]]; [| done].
    exfalso. apply Hno. split; [done |]. by apply block_of_index.
Qed.

Lemma kernel_events_reads_x bx by_ bo n bs pid i :
  bx ≠ by_ →
  filter (reads_of bx i) (kernel_events bx by_ bo n bs pid)
  = if decide (i < n ∧ i ∈ block_offsets bs pid) then [Ev pid Rd bx i] else [].
Proof.
  intros Hne. unfold kernel_events. rewrite !filter_app, !filter_fmap_list.
  rewrite (filter_none (fun a => reads_of bx i (Ev pid Rd by_ a)))
    by (intros a (_ & ? & _); cbn in *; congruence).
  rewrite (filter_none (fun a => reads_of bx i (Ev pid Wr bo a)))
    by (intros a (? & _); done).
  cbn [fmap list_fmap]. rewrite !app_nil_r.
  rewrite (list_filter_iff _ (fun o => o = i)).
  - rewrite guarded_index. by case_decide.
  - intros o. unfold reads_of. cbn. tauto.
Qed.

Lemma kernel_events_reads_y bx by_ bo n bs pid i :
  bx ≠ by_ →
  filter (reads_of by_ i) (kernel_events bx by_ bo n bs pid)
  = if decide (i < n ∧ i ∈ block_offsets bs pid) then [Ev pid Rd by_ i] else [].
Proof.
  intros Hne. unfold kernel_events. rewrite !filter_app, !filter_fmap_list.
  rewrite (filter_none (fun a => reads_of by_ i (Ev pid Rd bx a)))
    by (intros a (_ & ? & _); cbn in *; congruence).
  rewrite (filter_none (fun a => reads_of by_ i (Ev pid Wr bo a)))
    by (intros a (? & _); done).
  cbn [fmap list_fmap app]. rewrite !app_nil_r.
  rewrite (list_filter_iff _ (fun o => o = i)).
  - rewrite guarded_index. by case_decide.
  - intros o. unfold reads_of. cbn. tauto.
Qed.


(** ** Launching the kernel in place *)

Lemma run_programs_in_place bx by_ n bs order d lcur lx ly :
  0 < bs → NoDup order → bx ≠ by_ →
  mem d !! bx = Some lcur → mem d !! by_ = Some ly →
  n ≤ length lcur → n ≤ length ly →
  (∀ i, i / bs ∈ order → lcur !! i = lx !! i) →
  ∃ l',
    run_programs (add_kernel fadd (Ptr bx 0) (Ptr by_ 0) (Ptr bx 0) n bs) order d
    = (Done tt,
       Dev (<[bx := l']> (mem d))
           (log d ++ concat (map (kernel_events bx by_ bx n bs) order)))
    ∧ length l' = length lcur
    ∧ ∀ i, l' !! i = if decide (i < n ∧ i / bs ∈ order)
                     then zip_with fadd lx ly !! i else lcur !! i.
Proof.
  intros Hbs Hnd Hne. revert d lcur.
  induction Hnd as [|pid rest Hpid Hnd IH]; intros d lcur Hx Hy Hlx Hly Hsame.
  - exists lcur. cbn [run_programs map concat]. split_and!; [| done |].
    + rewrite app_nil_r, insert_id by done. by destruct d.
    + intros i. rewrite decide_False; [done |]. intros [_ Hin].
      by apply elem_of_nil in Hin.
  - cbn [run_programs].
    destruct (add_kernel_spec bx by_ bx n bs pid d lcur ly lcur Hx Hy Hx Hlx Hly Hlx)
      as (l1 & Hstep & Hlen1 & Hlk1).
    rewrite Hstep. set (d1 := Dev _ _).
    destruct (IH d1 l1) as (l' & Hrun & Hlen & Hlk).
    { subst d1. cbn [mem]. by rewrite lookup_insert_eq. }
    { subst d1. cbn [mem]. by rewrite lookup_insert_ne. }
    { lia. }
    { done. }
    { intros i Hi. rewrite Hlk1, decide_False.
      - apply Hsame. by right.
      - intros [_ Hb]. apply block_of_index in Hb; [| done]. congruence. }
    exists l'. split_and!.
    + rewrite Hrun. subst d1. cbn [mem log map concat].
      by rewrite insert_insert_eq, <- app_assoc.
    + lia.
    + intros i. rewrite Hlk.
      destruct (decide (i < n ∧ i / bs ∈ rest)) as [[Hi Hin] | Hno].
      * rewrite decide_True; [done |]. split; [done | by right].
      * rewrite Hlk1.
        destruct (decide (i < n ∧ i ∈ block_offsets bs pid)) as [[Hi Hb] | Hnb].
        -- apply block_of_index in Hb; [| done].
           rewrite decide_True by (split; [done | rewrite Hb; left]).
           rewrite !lookup_zip_with, Hsame; [done |]. rewrite Hb. left.
        -- rewrite decide_False; [done |]. intros [Hi Hin].
           apply elem_of_cons in Hin as [Heq | Hin]; [| tauto].
           apply Hnb. split; [done |]. by apply block_of_index.
Qed.


(** ** Feeding a result back *)

Lemma holds_alloc d t l l' lg :
  holds d t l → holds (Dev (<[fresh (dom (mem d)) := l']> (mem d)) lg) t l.
Proof.
  intros [Ht Hl]. split; [| done]. cbn [mem].
  rewrite lookup_insert_ne; [done |].
  intros Heq. rewrite <- Heq, fresh_unused in Ht. done.
Qed.


(** ** The timing cell *)


(** ** A second input that is too short, continued *)

Lemma tl_load_block b l n os pid d :
  mem d !! b = Some l →
  (∀ o, o ∈ os → o < n → o < length l) →
  tl_load (ptr_add (Ptr b 0) os) (map (fun o => o <? n) os) pid d
  = (Done (map (fun o => if o <? n then l !! o else None) os),
     Dev (mem d) (log d ++ map (Ev pid Rd b) (guarded n os))).
Proof.
  intros Hb Hin. unfold tl_load, ptr_add, guarded. rewrite zip_fmap_diag.
  cbn [blk off Nat.add]. revert d Hb.
  induction os as [|o os IH]; intros d Hb.
  - simpl. unfold ret. rewrite app_nil_r. by destruct d.
  - rewrite !map_cons. cbn [mapK]. unfold bind at 1.
    destruct (Nat.ltb_spec o n) as [Ho | Ho].
    + destruct (lookup_lt_is_Some_2 l o) as [v Hv]; [apply Hin; [left | done] |].
      unfold bind at 1. rewrite (read1_ok _ _ _ _ _ _ Hb Hv).
      unfold ret at 1. unfold bind at 1.
      rewrite (IH (fun o' Ho' => Hin o' (list_elem_of_further _ _ _ Ho')) (emit _ d))
        by done.
      unfold ret. cbn [mem log emit]. rewrite filter_cons_True by done.
      by rewrite Hv, <- app_assoc.
    + unfold ret at 1. unfold bind at 1.
      rewrite (IH (fun o' Ho' => Hin o' (list_elem_of_further _ _ _ Ho')) d) by done.
      unfold ret. rewrite filter_cons_False by lia. done.
Qed.

Lemma tl_load_stops b l n os pid d :
  mem d !! b = Some l →
  (∃ o, o ∈ os ∧ o < n ∧ length l ≤ o) →
  ∃ evs o,
    tl_load (ptr_add (Ptr b 0) os) (map (fun o => o <? n) os) pid d
    = (Fault, Dev (mem d) (log d ++ evs ++ [Ev pid Rd b o]))
    ∧ o < n ∧ length l ≤ o.
Proof.
  intros Hb Hbad. unfold tl_load, ptr_add. rewrite zip_fmap_diag.
  cbn [blk off Nat.add]. revert d Hb.
  induction os as [|o os IH]; intros d Hb.
  { destruct Hbad as (o & Ho & _). by apply elem_of_nil in Ho. }
  rewrite map_cons. cbn [mapK]. unfold bind at 1.
  destruct (Nat.ltb_spec o n) as [Hon | Hon].
  - unfold bind at 1. destruct (decide (o < length l)) as [Hol | Hol].
    + destruct (lookup_lt_is_Some_2 l o Hol) as [v Hv].
      rewrite (read1_ok _ _ _ _ _ _ Hb Hv). unfold ret at 1. unfold bind at 1.
      destruct (IH) with (d := emit (Ev pid Rd b o) d) as (evs & o' & Hrun & Ho');
        [| done |].
      { destruct Hbad as (o' & Ho' & Hn' & Hl'). exists o'.
        apply elem_of_cons in Ho' as [-> | Ho']; [lia | done]. }
      rewrite Hrun. exists (Ev pid Rd b o :: evs), o'. split; [| done].
      cbn [mem log emit]. by rewrite <- app_assoc.
    + exists [], o. split; [| lia]. unfold read1. cbn [blk off]. rewrite Hb. cbn.
      by rewrite (lookup_ge_None_2 l o) by lia.
  - unfold ret at 1. unfold bind at 1.
    destruct (IH) with (d := d) as (evs & o' & Hrun & Ho'); [| done |].
    { destruct Hbad as (o' & Ho' & Hn' & Hl'). exists o'.
      apply elem_of_cons in Ho' as [-> | Ho']; [lia | done]. }
    rewrite Hrun. by exists evs, o'.
Qed.

Lemma add_kernel_block_ok bx by_ bo n bs pid d lx ly lo :
  mem d !! bx = Some lx → mem d !! by_ = Some ly → mem d !! bo = Some lo →
  n ≤ length lx → n ≤ length lo →
  (∀ o, o ∈ block_offsets bs pid → o < n → o < length ly) →
  (add_kernel fadd (Ptr bx 0) (Ptr by_ 0) (Ptr bo 0) n bs pid d).1 = Done tt.
Proof.
  intros Hx Hy Ho Hlx Hlo Hblock.
  unfold add_kernel, tl_program_id. unfold bind at 1.
  fold (block_offsets bs pid). set (os := block_offsets bs pid) in *.
  unfold bind at 1. rewrite (tl_load_spec _ _ _ _ _ _ Hx Hlx).
  unfold bind at 1. rewrite (tl_load_block _ _ _ _ _ (Dev _ _) Hy Hblock).
  unfold lanes_add. rewrite zip_with_fmap_diag. cbn [mem log].
  set (v := fun o : nat => _).
  destruct (tl_store_spec bo n v os pid (Dev (mem d) ((log d ++ map (Ev pid Rd bx) (guarded n os)) ++ map (Ev pid Rd by_) (guarded n os))) lo Ho Hlo)
    as (lo' & Hrun & _).
  { intros o Hin Hon. subst v. cbn beta.
    apply Nat.ltb_lt in Hon as Hb. rewrite Hb.
    destruct (lookup_lt_is_Some_2 lx o ltac:(lia)) as [a ->].
    destruct (lookup_lt_is_Some_2 ly o ltac:(by apply Hblock)) as [b ->]. by eexists. }
  by rewrite Hrun.
Qed.

Lemma add_kernel_stops bx by_ bo n bs pid d lx ly :
  mem d !! bx = Some lx → n ≤ length lx → mem d !! by_ = Some ly →
  (∃ o, o ∈ block_offsets bs pid ∧ o < n ∧ length ly ≤ o) →
  ∃ evs o,
    add_kernel fadd (Ptr bx 0) (Ptr by_ 0) (Ptr bo 0) n bs pid d
    = (Fault, Dev (mem d) (log d ++ evs ++ [Ev pid Rd by_ o]))
    ∧ o < n ∧ length ly ≤ o.
Proof.
  intros Hx Hlx Hy Hbad.
  unfold add_kernel, tl_program_id. unfold bind at 1.
  fold (block_offsets bs pid).
  unfold bind at 1. rewrite (tl_load_spec _ _ _ _ _ _ Hx Hlx).
  unfold bind at 1.
  destruct (tl_load_stops by_ ly n (block_offsets bs pid) pid
              (Dev (mem d) (log d ++ map (Ev pid Rd bx) (guarded n (block_offsets bs pid))))
              Hy Hbad) as (evs & o & Hrun & Ho).
  rewrite Hrun. cbn [mem log].
  exists (map (Ev pid Rd bx) (guarded n (block_offsets bs pid)) ++ evs), o.
  split; [| done]. by rewrite <- !app_assoc.
Qed.

Lemma run_programs_stops bx by_ bo n bs order d lx ly lo pid0 :
  mem d !! bx = Some lx → n ≤ length lx → mem d !! by_ = Some ly →
  mem d !! bo = Some lo → n ≤ length lo →
  bo ≠ bx → bo ≠ by_ → pid0 ∈ order →
  (∃ o, o ∈ block_offsets bs pid0 ∧ o < n ∧ length ly ≤ o) →
  ∃ d' evs pid o,
    run_programs (add_kernel fadd (Ptr bx 0) (Ptr by_ 0) (Ptr bo 0) n bs) order d
    = (Fault, d')
    ∧ log d' = log d ++ evs ++ [Ev pid Rd by_ o]
    ∧ o < n ∧ length ly ≤ o.
Proof.
  intros Hx Hlx Hy Ho Hlo Hox Hoy Hin Hbad. revert d lo Hx Hy Ho Hlo.
  induction order as [|pid rest IH]; intros d lo Hx Hy Ho Hlo.
  { by apply elem_of_nil in Hin. }
  cbn [run_programs].
  destruct (decide (Exists (fun o => o < n ∧ length ly ≤ o) (block_offsets bs pid)))
    as [Hhere | Hnot].
  - apply Exists_exists in Hhere as (o & Hob & Hon).
    destruct (add_kernel_stops bx by_ bo n bs pid d lx ly Hx Hlx Hy)
      as (evs & o' & Hrun & Ho'); [by exists o |].
    rewrite Hrun. eexists _, evs, pid, o'. by split.
  - assert (∀ o, o ∈ block_offsets bs pid → o < n → o < length ly) as Hblock.
    { intros o Hob Hon. destruct (decide (o < length ly)) as [|Hge]; [done |].
      exfalso. apply Hnot, Exists_exists. exists o. split; [done | lia]. }
    pose proof (add_kernel_block_ok bx by_ bo n bs pid d lx ly lo
                  Hx Hy Ho Hlx Hlo Hblock) as Hdone.
    pose proof (safe_add_kernel bx by_ bo n bs pid d) as Hext.
    destruct (add_kernel _ _ _ _ _ _ pid d) as [r d1]. cbn [fst snd] in *.
    subst r.
    assert (pid0 ∈ rest) as Hin'.
    { apply elem_of_cons in Hin as [-> | Hin]; [| done].
      exfalso. destruct Hbad as (o & Hob & Hon & Hlen).
      specialize (Hblock o Hob Hon). lia. }
    pose proof (ext_shape _ _ _ _ Hext bo) as Hshape. rewrite Ho in Hshape.
    apply fmap_Some in Hshape as (lo1 & Ho1 & Hlen1).
    destruct (IH Hin' d1 lo1) as (d' & evs & pid' & o & Hrun & Hlog & Hon).
    { rewrite (extends_block _ _ d d1 bx Hext); [done |]. by intros i [? _]. }
    { rewrite (extends_block _ _ d d1 by_ Hext); [done |]. by intros i [? _]. }
    { done. }
    { lia. }
    destruct Hext as [(evs1 & Hl1 & _) _ _].
    exists d', (evs1 ++ evs), pid', o. split; [done |]. split; [| done].
    by rewrite Hlog, Hl1, <- !app_assoc.
Qed.


End Facts.

(** * The scenarios, evaluated *)

Import Scenario.

Lemma fair_reverse : fair reverse.
Proof. intros l. apply reverse_Permutation. Qed.

Lemma fair_id : fair (fun l => l).
Proof. intros l. done. Qed.

(** The notebook's own launcher (blocks of 1024 lanes) on the two
    five-element vectors, and on a second input that is too short. *)
Example add_on_scenario :
  observe (add Z.add reverse zeros x y device) = Values [11; 22; 33; 44; 55]%Z.
Proof. vm_compute. reflexivity. Qed.

Example add_second_input_too_short :
  observe (add Z.add reverse zeros y_long x_short device_short) = DeviceError.
Proof. vm_compute. reflexivity. Qed.

(** C8. Five elements in blocks of two: the grid has three programs,
    which write the indices [0,1], [2,3] and [4]; in each of the six
    orders in which they can run, the grid completes and the output
    holds [11, 22, 33, 44, 55]. *)
Theorem five_elements_blocks_of_two :
  cdiv 5 2 = 3
  ∧ Forall (fun order =>
              summary (add_with Z.add 2 (fun _ => order) zeros x y device)
              = Some (Done tt, Some [11; 22; 33; 44; 55]%Z, [[0; 1]; [2; 3]; [4]]))
           (permutations [0; 1; 2]).
Proof.
  split; [done |].
  assert (permutations [0; 1; 2]
          = [[0; 1; 2]; [1; 0; 2]; [1; 2; 0]; [0; 2; 1]; [2; 0; 1]; [2; 1; 0]]) as ->
    by (vm_compute; reflexivity).
  repeat constructor; vm_compute; reflexivity.
Qed.

(** ** Instances of the general statements *)








Lemma add_empty_witness :
  cdiv (numel x_empty) 1024 = 0
  ∧ ∃ out,
      add_with Z.add 1024 reverse zeros x_empty y_empty device_empty
      = Returned out (Done tt)
          (Dev (<[storage out := []]> (mem device_empty)) (log device_empty))
      ∧ numel out = 0.
Proof.
  apply (add_empty Z.add 1024 reverse zeros x_empty y_empty device_empty).
  - lia.
  - apply fair_reverse.
  - reflexivity.
  - reflexivity.
  - reflexivity.
Defined.



(** ** Instances of the further properties *)







